(* Verification of the trust-material and result-cache components of ratify:
   - the Azure Key Vault certificate provider (PEM / PKCS#12 parsing and the
     per-secret extraction), and
   - the ristretto-backed generic cache (internal/cache/ristretto). *)

From Stdlib Require Import String Ascii ZArith Lia Bool.
From stdpp Require Import base gmap strings list fin_maps.

Open Scope Z_scope.

(* ===================================================================== *)
(* Strings used in error messages                                        *)
(* ===================================================================== *)

Module Str.

(** The double-quote character. *)
Definition dq : string := String (ascii_of_nat 34) EmptyString.

(** [%q]-style quoting as shown by the error messages of the tests. *)
Definition q (s : string) : string := String.append dq (String.append s dq).

(** Substring test: [contains pat s] is [strings.Contains(s, pat)]. *)
Fixpoint contains (pat s : string) : bool :=
  String.prefix pat s ||
  match s with
  | EmptyString => false
  | String _ s' => contains pat s'
  end.

End Str.

(* ===================================================================== *)
(* Go slices: [nil] is distinct from a non-nil slice                     *)
(* ===================================================================== *)

Module GoSlice.

(** A Go slice value: [None] is the nil slice. *)
Definition slice (A : Type) := option (list A).

Definition len {A} (s : slice A) : nat :=
  match s with None => 0%nat | Some l => length l end.

(** [append(s, x)] *)
Definition append1 {A} (s : slice A) (x : A) : slice A :=
  match s with None => Some [x] | Some l => Some (l ++ [x]) end.

End GoSlice.

Import GoSlice.

(* ===================================================================== *)
(* Azure Key Vault certificate provider                                  *)
(* ===================================================================== *)

(* The provider's implementation (azurekeyvault.go) is not part of the
   sources at hand: only its tests are.  Its functions are modelled below
   from the specification (section 4.2 and properties 3-5) and from the
   error messages the tests expect; each such definition says so.  The
   standard-library collaborators (encoding/pem, encoding/base64,
   crypto/x509 and the PKCS#12 decoder) are black boxes, taken as section
   variables. *)

Module KeyVault.

Definition PKCS12ContentType : string := "application/x-pkcs12".
Definition PEMContentType : string := "application/x-pem-file".
Definition azureKeyVaultProviderName : string := "azurekeyvault".

(** [CertificateSpec{Name, Version}]; an empty version means the latest. *)
Record CertificateSpec := { Name : string; Version : string }.

(** A decoded [pem.Block]: its type line and its base64-decoded body. *)
Record Block := { Type_ : string; Bytes : list Byte.byte }.

(** The two fields of [azsecrets.Secret] the provider reads (both set). *)
Record Secret := { Value : string; ContentType : string }.

Section Provider.

Variable Certificate : Type.

(** [x509.ParseCertificate] *)
Variable ParseCertificate : list Byte.byte -> option Certificate.

(** The blocks [pem.Decode] returns, one after the other, when it is
    applied repeatedly to the remainder of a string until it finds no
    further block. *)
Variable pemBlocks : string -> list Block.

(** [base64.StdEncoding.DecodeString] *)
Variable DecodeString : string -> option (list Byte.byte).

(** [pkcs12.DecodeChain]: the leaf certificate and the CA certificates. *)
Variable DecodeChain : list Byte.byte -> option (Certificate * list Certificate).

(** Modelled from the spec: the block loop of [parseCertificateInPem]
    (azurekeyvault.go). Only blocks of type CERTIFICATE are parsed; a
    parse failure aborts with a nil slice; other blocks are skipped. *)
Fixpoint parsePemBlocks (rest : list Block) (certs : slice Certificate)
  : slice Certificate * option string :=
  match rest with
  | [] => (certs, None)
  | b :: rest' =>
      if String.eqb (Type_ b) "CERTIFICATE" then
        match ParseCertificate (Bytes b) with
        | None => (None, Some "failed to parse x509 certificate")
        | Some c => parsePemBlocks rest' (append1 certs c)
        end
      else parsePemBlocks rest' certs
  end.

(** Modelled from the spec: [parseCertificateInPem(data, certSpec)], with
    [data] given by the sequence of PEM blocks it contains. *)
Definition parseCertificateInPem (blocks : list Block) (certSpec : CertificateSpec)
  : slice Certificate * option string :=
  parsePemBlocks blocks None.

(** Whitespace test used for the blank-input check. *)
Definition isSpace (c : ascii) : bool :=
  let n := nat_of_ascii c in
  (n =? 32)%nat || (n =? 9)%nat || (n =? 10)%nat || (n =? 13)%nat.

Fixpoint isBlank (s : string) : bool :=
  match s with
  | EmptyString => true
  | String c s' => isSpace c && isBlank s'
  end.

(** Modelled from the spec: [parseCertificateInPKCS12(data *string, certSpec)]:
    a nil or blank input is fatal, then base64 decoding, then the PKCS#12
    decoding, each fatal on failure. *)
Definition parseCertificateInPKCS12 (data : option string) (certSpec : CertificateSpec)
  : slice Certificate * option string :=
  match data with
  | None => (None, Some "PKCS#12 data is nil")
  | Some s =>
      if isBlank s then (None, Some "PKCS#12 data is empty")
      else
        match DecodeString s with
        | None => (None, Some "failed to decode base64 PKCS#12 data")
        | Some raw =>
            match DecodeChain raw with
            | None => (None, Some "failed to decode PKCS#12 data")
            | Some (leaf, caCerts) => (Some (leaf :: caCerts), None)
            end
        end
  end.

(** Error messages of [extractCertificateFromResponse], as the tests
    spell them. *)
Definition errUnexpectedContentType (ct : string) (certSpec : CertificateSpec) : string :=
  String.append "unexpected content type "
  (String.append (Str.q ct)
  (String.append " for secret "
  (String.append (Str.q (Name certSpec))
  (String.append ", expected "
  (String.append (Str.q PKCS12ContentType)
  (String.append " or " (Str.q PEMContentType))))))).

Definition errParse (kind : string) (certSpec : CertificateSpec) (e : string) : string :=
  String.append "failed to parse "
  (String.append kind
  (String.append " certificate chain from secret "
  (String.append (Str.q (Name certSpec))
  (String.append " of version "
  (String.append (Str.q (Version certSpec))
  (String.append ": " e)))))).

Definition errNoChain (certSpec : CertificateSpec) : string :=
  String.append "no certificate chain found in secret with name: "
  (String.append (Str.q (Name certSpec))
  (String.append " of version " (Str.q (Version certSpec)))).

(** Modelled from the spec: [extractCertificateFromResponse(response,
    certSpec)]: dispatch on the content type, parse, and require a
    non-empty certificate chain. *)
Definition extractCertificateFromResponse (response : Secret) (certSpec : CertificateSpec)
  : slice Certificate * option string :=
  let parsed :=
    if String.eqb (ContentType response) PKCS12ContentType then
      match parseCertificateInPKCS12 (Some (Value response)) certSpec with
      | (_, Some e) => inr (errParse "PKCS#12" certSpec e)
      | (certs, None) => inl certs
      end
    else if String.eqb (ContentType response) PEMContentType then
      match parseCertificateInPem (pemBlocks (Value response)) certSpec with
      | (_, Some e) => inr (errParse "PEM" certSpec e)
      | (certs, None) => inl certs
      end
    else inr (errUnexpectedContentType (ContentType response) certSpec) in
  match parsed with
  | inr e => (None, Some e)
  | inl certs =>
      if (len certs =? 0)%nat then (None, Some (errNoChain certSpec))
      else (certs, None)
  end.

(** The provider object: its configured certificates and the certificates
    cached at initialisation. *)
Record Provider := { certSpecs : list CertificateSpec; cachedCerts : slice Certificate }.

(** Modelled from the spec: the method [GetCertificates] of [*Provider]. *)
Definition GetCertificates (p : Provider) : slice Certificate * option string :=
  if (len (cachedCerts p) =? 0)%nat then (None, Some "no cached certificates available")
  else (cachedCerts p, None).

End Provider.

End KeyVault.

(* ===================================================================== *)
(* The ristretto library, as far as the cache wrapper relies on it        *)
(* ===================================================================== *)

(* github.com/dgraph-io/ristretto/v2 is a third-party library.  Its state
   is modelled explicitly: the stored items (keyed by the key itself; the
   library's 64-bit key hashes and conflict hashes are not modelled), the
   admission policy's running cost total, the set buffer drained by [Wait],
   and a clock in nanoseconds.  The choices the sampled-LFU policy makes
   when an item does not fit, and whether the lossy set buffer is full, are
   inputs of the operations.  [Del] applies its policy bookkeeping at once. *)

Module Ristretto.

(** A stored item: value, expiration instant (0: never) and cost. *)
Record item (V : Type) := mkItem { ivalue : V; iexpiration : Z; icost : Z }.
Arguments mkItem {V}. Arguments ivalue {V}. Arguments iexpiration {V}. Arguments icost {V}.

(** [ristretto.Config] (the fields the wrapper sets). *)
Record Config := { NumCounters : Z; MaxCost : Z; BufferItems : Z }.

Inductive itemFlag := itemNew | itemUpdate.

(** [ristretto.Cache[string, V]] *)
Record t (V : Type) := mk {
  storedItems : gmap string (item V);
  used : Z;                               (* policy's total cost *)
  maxCost : Z;
  itemSize : Z;                           (* internal cost added per item *)
  setBuf : list (itemFlag * string * item V);
  now : Z                                 (* time.Now(), in ns *)
}.
Arguments mk {V}. Arguments storedItems {V}. Arguments used {V}.
Arguments maxCost {V}. Arguments itemSize {V}. Arguments setBuf {V}. Arguments now {V}.

(** What the sampled-LFU policy decides for an incoming key that does not
    fit: the sampled victims it evicts and whether the key is admitted. *)
Record verdict := { victims : list string; admitted : bool }.

Section Ops.
Context {V : Type}.

Definition with_store (c : t V) (s : gmap string (item V)) (u : Z) : t V :=
  mk s u (maxCost c) (itemSize c) (setBuf c) (now c).

Definition with_buf (c : t V) (b : list (itemFlag * string * item V)) : t V :=
  mk (storedItems c) (used c) (maxCost c) (itemSize c) b (now c).

(** [ristretto.NewCache(config)]; [itemSize] is the library's per-item
    internal cost, [now] the creation time. *)
Definition NewCache (cfg : Config) (itemSize0 now0 : Z) : t V + string :=
  if NumCounters cfg =? 0 then inr "NumCounters can't be zero"
  else if MaxCost cfg =? 0 then inr "MaxCost can't be zero"
  else if BufferItems cfg =? 0 then inr "BufferItems can't be zero"
  else inl (mk ∅ 0 (MaxCost cfg) itemSize0 [] now0).

(** [c.SetWithTTL(key, value, cost, ttl)]: an existing key is updated in
    place at once; a new key is queued for the policy, and dropped (result
    false) when the set buffer is full. *)
Definition SetWithTTL (c : t V) (key : string) (value : V) (cost ttl : Z)
    (bufferFull : bool) : bool * t V :=
  if ttl <? 0 then (false, c) else
  let expiration := if ttl =? 0 then 0 else now c + ttl in
  let i := mkItem value expiration cost in
  match storedItems c !! key with
  | Some prev =>
      let c1 := with_store c (<[key := mkItem value expiration (icost prev)]> (storedItems c)) (used c) in
      (true, if bufferFull then c1 else with_buf c1 (setBuf c1 ++ [(itemUpdate, key, i)]))
  | None =>
      if bufferFull then (false, c) else (true, with_buf c (setBuf c ++ [(itemNew, key, i)]))
  end.

(** Eviction of one victim by the policy. *)
Definition evict (c : t V) (key : string) : t V :=
  match storedItems c !! key with
  | Some it => with_store c (delete key (storedItems c)) (used c - icost it)
  | None => c
  end.

Definition store_new (c : t V) (key : string) (i : item V) (cost : Z) : t V :=
  with_store c (<[key := mkItem (ivalue i) (iexpiration i) cost]> (storedItems c)) (used c + cost).

(** [policy.Add] followed, when admitted, by [storedItems.Set]. *)
Definition policyAdd (c : t V) (key : string) (i : item V) (cost : Z) (vd : verdict) : t V :=
  if maxCost c <? cost then c
  else match storedItems c !! key with
  | Some _ => c
  | None =>
      if used c + cost <=? maxCost c then store_new c key i cost
      else
        let c1 := fold_left evict (victims vd) c in
        if admitted vd && (used c1 + cost <=? maxCost c1) then store_new c1 key i cost else c1
  end.

(** One buffered item processed by the library's goroutine; the internal
    cost [itemSize] is added to the cost given to [SetWithTTL]. *)
Definition processItem (policy : string -> verdict) (c : t V)
    (e : itemFlag * string * item V) : t V :=
  let '(flag, key, i) := e in
  let cost := icost i + itemSize c in
  match flag with
  | itemNew => policyAdd c key i cost (policy key)
  | itemUpdate =>
      match storedItems c !! key with
      | Some it =>
          with_store c (<[key := mkItem (ivalue it) (iexpiration it) cost]> (storedItems c))
                       (used c - icost it + cost)
      | None => c
      end
  end.

(** [c.Wait()]: drains the set buffer. *)
Definition Wait (policy : string -> verdict) (c : t V) : t V :=
  with_buf (fold_left (processItem policy) (setBuf c) c) [].

(** [c.Get(key)]: an item whose expiration has passed is not returned. *)
Definition Get (c : t V) (key : string) : option V :=
  match storedItems c !! key with
  | Some it =>
      if (iexpiration it =? 0) || (now c <=? iexpiration it) then Some (ivalue it) else None
  | None => None
  end.

(** [c.Del(key)] *)
Definition Del (c : t V) (key : string) : t V := evict c key.

(** Time passing by [d] nanoseconds. *)
Definition elapse (d : Z) (c : t V) : t V :=
  mk (storedItems c) (used c) (maxCost c) (itemSize c) (setBuf c) (now c + d).

End Ops.

End Ristretto.

(* ===================================================================== *)
(* internal/cache: the errors of api.go                                   *)
(* ===================================================================== *)

Module CacheAPI.

(** The sentinel errors of api.go, and errors passed through from the
    library. *)
Inductive error :=
| ErrNotFound          (* "cache not found" *)
| ErrInvalidTTL        (* "invalid TTL provided" *)
| ErrAddFailed         (* "failed to add key/value to cache" *)
| ErrInvalidMaxSize    (* "invalid max size provided for cache" *)
| ErrLibrary (msg : string).

(** Go's zero value of a type parameter. *)
Class GoZero (T : Type) := zero : T.

End CacheAPI.

(* ===================================================================== *)
(* internal/cache/ristretto: the generic cache                            *)
(* ===================================================================== *)

Module RistrettoCache.
Import CacheAPI.

Definition defaultMaxSize : Z := 100000000.
Definition defaultCountNum : Z := 100000.

(** [Cache[T]{cache, ttl}]; durations are in nanoseconds. *)
Record Cache (T : Type) := mkCache { cache : Ristretto.t T; ttl : Z }.
Arguments mkCache {T}. Arguments cache {T}. Arguments ttl {T}.

(** The configuration literal of [NewCache]. *)
Definition config : Ristretto.Config :=
  {| Ristretto.NumCounters := defaultCountNum;
     Ristretto.MaxCost := defaultMaxSize;
     Ristretto.BufferItems := 64 |}.

Section Methods.
Context {T : Type}.

(** [NewCache[T](ttl)]; [itemSize] and [now] are the library's internal
    per-item cost and the creation time. *)
Definition NewCache (itemSize now ttl : Z) : option (Cache T) * option error :=
  if ttl <? 0 then (None, Some ErrInvalidTTL)
  else match Ristretto.NewCache config itemSize now with
       | inr err => (None, Some (ErrLibrary err))
       | inl memoryCache => (Some (mkCache memoryCache ttl), None)
       end.

(** [r.Get(ctx, key)] *)
Definition Get `{GoZero T} (r : Cache T) (key : string) : T * option error :=
  match Ristretto.Get (cache r) key with
  | Some cacheValue => (cacheValue, None)
  | None => (zero, Some ErrNotFound)
  end.

(** [r.Set(ctx, key, value, ttl)]; [bufferFull] and [policy] are the
    library's nondeterministic choices. *)
Definition Set_ (r : Cache T) (key : string) (value : T) (ttl0 : Z)
    (bufferFull : bool) (policy : string -> Ristretto.verdict) : option error * Cache T :=
  let ttl1 := if ttl0 <=? 0 then ttl r else ttl0 in
  let '(saved, c1) := Ristretto.SetWithTTL (cache r) key value 1 ttl1 bufferFull in
  let c2 := Ristretto.Wait policy c1 in
  (if saved then None else Some ErrAddFailed, mkCache c2 (ttl r)).

(** [r.Delete(ctx, key)] *)
Definition Delete (r : Cache T) (key : string) : option error * Cache T :=
  (None, mkCache (Ristretto.Del (cache r) key) (ttl r)).

(** Time passing between two calls. *)
Definition elapse (d : Z) (r : Cache T) : Cache T :=
  mkCache (Ristretto.elapse d (cache r)) (ttl r).

End Methods.

(** The caches a program can hold: built by [NewCache], then changed by
    [Set], [Delete] and the passing of time ([Get] changes nothing the
    model tracks). *)
Inductive reachable {T : Type} : Cache T -> Prop :=
| reach_new (itemSize now ttl : Z) (r : Cache T) :
    0 <= itemSize -> NewCache itemSize now ttl = (Some r, None) -> reachable r
| reach_set (r : Cache T) key value ttl0 bufferFull policy :
    reachable r -> reachable (snd (Set_ r key value ttl0 bufferFull policy))
| reach_delete (r : Cache T) key :
    reachable r -> reachable (snd (Delete r key))
| reach_elapse (r : Cache T) d :
    0 <= d -> reachable r -> reachable (elapse d r).

End RistrettoCache.

(* ===================================================================== *)
(* Concrete inputs                                                        *)
(* ===================================================================== *)

Module Fixtures.
Import KeyVault CacheAPI RistrettoCache.

(** Certificates are numbers; a body parses when it is non-empty. *)
Definition parseCert (bs : list Byte.byte) : option nat :=
  match bs with [] => None | b :: _ => Some (Byte.to_nat b) end.

Definition certA : Block := {| Type_ := "CERTIFICATE"; Bytes := [Byte.x01] |}.
Definition certB : Block := {| Type_ := "CERTIFICATE"; Bytes := [Byte.x02] |}.
Definition certBad : Block := {| Type_ := "CERTIFICATE"; Bytes := [] |}.
Definition keyBlock : Block := {| Type_ := "PRIVATE KEY"; Bytes := [Byte.x03] |}.

(** The secret value "key-only" holds a single private-key block. *)
Definition pemOf (s : string) : list Block :=
  if String.eqb s "key-only" then [keyBlock] else [].

(** Only "AAAA" is valid base64 here, and no byte string is a bundle. *)
Definition b64 (s : string) : option (list Byte.byte) :=
  if String.eqb s "AAAA" then Some [Byte.x00] else None.

Definition p12 (_ : list Byte.byte) : option (nat * list nat) := None.

Definition spec0 : CertificateSpec := {| Name := "test-cert"; Version := "v1" |}.

#[export] Instance GoZero_nat : GoZero nat := 0%nat.

(** The library always admits; nothing is evicted. *)
Definition admitAll (_ : string) : Ristretto.verdict :=
  {| Ristretto.victims := []; Ristretto.admitted := true |}.

(** A fresh cache created at time 0 with default TTL [d] and an internal
    per-item cost of 48. *)
Definition freshCache (d : Z) : Cache nat :=
  mkCache (Ristretto.mk ∅ 0 defaultMaxSize 48 [] 0) d.

(** A cache holding "k" = 7, stored at time 0 with the default TTL 5. *)
Definition withK : Cache nat := snd (Set_ (freshCache 5) "k" 7%nat 0 false admitAll).

(** The library's policy rejecting an incoming key without evicting:
    sampled LFU does so when the key is estimated less frequent than the
    least frequent sampled entry. *)
Definition rejectAll (_ : string) : Ristretto.verdict :=
  {| Ristretto.victims := []; Ristretto.admitted := false |}.

(** Distinct keys: the binary digits of a number, least significant first. *)
Fixpoint keyP (p : positive) : string :=
  match p with
  | xH => "1"
  | xO p' => String "0" (keyP p')
  | xI p' => String "1" (keyP p')
  end.

Definition keyN (n : N) : string :=
  match n with N0 => EmptyString | Npos p => keyP p end.

(** [n] calls [Set(ctx, keyN m, 1, 0)], m = 0 .. n-1, on a fresh cache
    with default TTL 0, every new key admitted by the library. *)
Definition fill (n : N) : Cache nat :=
  N.peano_rect (fun _ => Cache nat) (freshCache 0)
    (fun m acc => snd (Set_ acc (keyN m) 1%nat 0 false admitAll)) n.

End Fixtures.

(* ===================================================================== *)
(* Facts about the message strings                                       *)
(* ===================================================================== *)

Module StrFacts.
Import Str.

Lemma prefix_app (p x : string) : String.prefix p (String.append p x) = true.
Proof.
  induction p as [|c p IH]; simpl.
  - destruct x; reflexivity.
  - destruct (ascii_dec c c) as [_|n]; [exact IH | contradiction].
Qed.

Lemma contains_app_r (pat a b : string) :
  contains pat b = true -> contains pat (String.append a b) = true.
Proof.
  induction a as [|c a IH]; simpl; intros H; [exact H|].
  rewrite (IH H). apply orb_true_r.
Qed.

Lemma contains_prefix (pat x : string) :
  contains pat (String.append pat x) = true.
Proof.
  destruct pat as [|c p]; simpl.
  - destruct x; reflexivity.
  - destruct (ascii_dec c c) as [_|n]; [|contradiction].
    rewrite prefix_app. reflexivity.
Qed.

Lemma contains_mid (pat a b : string) :
  contains pat (String.append a (String.append pat b)) = true.
Proof. apply contains_app_r, contains_prefix. Qed.

Lemma append_cons (x : ascii) (a b : string) :
  String.append (String x a) b = String x (String.append a b).
Proof. reflexivity. Qed.

Lemma append_assoc (a b c : string) :
  String.append (String.append a b) c = String.append a (String.append b c).
Proof.
  induction a as [|x a IH]; [reflexivity|].
  rewrite !append_cons, IH. reflexivity.
Qed.

Lemma contains_q (pat a b : string) :
  contains pat (String.append a (String.append (q pat) b)) = true.
Proof.
  unfold q. rewrite !append_assoc.
  rewrite <- (append_assoc a dq).
  apply contains_mid.
Qed.

Lemma prefix_app_l (p a b : string) :
  String.prefix p a = true -> String.prefix p (String.append a b) = true.
Proof.
  revert a. induction p as [|c p IH]; intros a H; [destruct (String.append a b); reflexivity|].
  destruct a as [|c' a]; [discriminate|].
  rewrite append_cons. simpl in *.
  destruct (ascii_dec c c'); [now apply IH | discriminate].
Qed.

Lemma contains_cons (pat : string) (c : ascii) (s : string) :
  contains pat (String c s) = String.prefix pat (String c s) || contains pat s.
Proof. reflexivity. Qed.

Lemma contains_app_l (pat a b : string) :
  contains pat a = true -> contains pat (String.append a b) = true.
Proof.
  induction a as [|c a IH]; intros H.
  - destruct pat; [destruct b; reflexivity | discriminate].
  - rewrite append_cons, contains_cons. rewrite contains_cons in H.
    apply orb_true_iff in H as [H|H].
    + pose proof (prefix_app_l _ (String c a) b H) as H'.
      rewrite append_cons in H'. rewrite H'. reflexivity.
    + rewrite (IH H). apply orb_true_r.
Qed.

Lemma contains_in_q (pat : string) : contains pat (q pat) = true.
Proof. apply contains_mid. Qed.

(** Finds a pattern inside a message built by nested appends. *)
Ltac contains_tac :=
  lazymatch goal with
  | |- contains ?p (q ?p) = true => apply contains_in_q
  | |- contains _ (String.append _ _) = true =>
      first [ apply contains_app_l; contains_tac
            | apply contains_app_r; contains_tac ]
  | |- _ => reflexivity
  end.

End StrFacts.

(* ===================================================================== *)
(* Provider: proofs                                                      *)
(* ===================================================================== *)

Module KeyVaultProofs.
Import KeyVault StrFacts.

Section Proofs.

Variable Certificate : Type.
Variable ParseCertificate : list Byte.byte -> option Certificate.
Variable pemBlocks : string -> list Block.
Variable DecodeString : string -> option (list Byte.byte).
Variable DecodeChain : list Byte.byte -> option (Certificate * list Certificate).

Abbreviation parsePem := (parseCertificateInPem Certificate ParseCertificate).
Abbreviation parseLoop := (parsePemBlocks Certificate ParseCertificate).
Abbreviation parseP12 := (parseCertificateInPKCS12 Certificate DecodeString DecodeChain).
Abbreviation extract :=
  (extractCertificateFromResponse Certificate ParseCertificate pemBlocks DecodeString DecodeChain).

(** A failing block loop always returns the nil slice. *)
Lemma parsePemBlocks_error_nil (rest : list Block) (certs : slice Certificate) :
  snd (parseLoop rest certs) <> None -> fst (parseLoop rest certs) = None.
Proof.
  revert certs. induction rest as [|b rest IH]; intros certs H; simpl in *.
  - contradiction.
  - destruct (String.eqb (Type_ b) "CERTIFICATE"); [|now apply IH].
    destruct (ParseCertificate (Bytes b)); [now apply IH | reflexivity].
Qed.

(** Blocks of other types leave the accumulated slice and the error alone. *)
Lemma parsePemBlocks_skip (rest : list Block) (certs : slice Certificate) :
  Forall (fun b => Type_ b <> "CERTIFICATE") rest ->
  parseLoop rest certs = (certs, None).
Proof.
  revert certs. induction rest as [|b rest IH]; intros certs H; [reflexivity|].
  inversion H as [|? ? Hb Hrest]; subst. simpl.
  destruct (String.eqb_spec (Type_ b) "CERTIFICATE") as [E|_]; [contradiction|].
  now apply IH.
Qed.

(** A CERTIFICATE block that does not parse, anywhere in the input, makes
    the loop fail with a nil slice, whatever precedes or follows it. *)
Lemma parsePemBlocks_abort (pre post : list Block) (b : Block) (certs : slice Certificate) :
  Type_ b = "CERTIFICATE" -> ParseCertificate (Bytes b) = None ->
  fst (parseLoop (pre ++ b :: post) certs) = None /\
  snd (parseLoop (pre ++ b :: post) certs) <> None.
Proof.
  intros Tb Pb. revert certs. induction pre as [|x pre IH]; intros certs; simpl.
  - rewrite Tb, Pb. simpl. split; [reflexivity | discriminate].
  - destruct (String.eqb (Type_ x) "CERTIFICATE"); [|apply IH].
    destruct (ParseCertificate (Bytes x)); [apply IH|]. split; [reflexivity | discriminate].
Qed.

(** C1: two valid CERTIFICATE blocks give exactly their two certificates,
    in input order and without error; any input holding a valid
    CERTIFICATE block followed (at any distance, with any blocks before,
    between and after) by a CERTIFICATE block whose body does not parse
    gives an error and no certificate. *)
Theorem pem_two_blocks (certSpec : CertificateSpec) (b1 b2 : Block) (c1 : Certificate) :
  Type_ b1 = "CERTIFICATE" -> Type_ b2 = "CERTIFICATE" ->
  ParseCertificate (Bytes b1) = Some c1 ->
  (forall c2, ParseCertificate (Bytes b2) = Some c2 ->
     parsePem [b1; b2] certSpec = (Some [c1; c2], None)) /\
  (ParseCertificate (Bytes b2) = None ->
     forall pre mid post : list Block,
     len (fst (parsePem (pre ++ b1 :: mid ++ b2 :: post) certSpec)) = 0%nat /\
     snd (parsePem (pre ++ b1 :: mid ++ b2 :: post) certSpec) <> None).
Proof.
  intros T1 T2 P1. split.
  - intros c2 P2. unfold parseCertificateInPem. simpl.
    rewrite T1, T2, P1. simpl. now rewrite P2.
  - intros P2 pre mid post. unfold parseCertificateInPem.
    replace (pre ++ b1 :: mid ++ b2 :: post) with ((pre ++ b1 :: mid) ++ b2 :: post)
      by (rewrite <- app_assoc; reflexivity).
    destruct (parsePemBlocks_abort (pre ++ b1 :: mid) post b2 None T2 P2) as [A B].
    rewrite A. split; [reflexivity | exact B].
Qed.

Lemma eqb_PEM_PKCS12 : String.eqb PEMContentType PKCS12ContentType = false.
Proof. reflexivity. Qed.

(** C2: input with no CERTIFICATE block parses to no certificate and no
    error, while the extraction of a PEM secret with that value fails with
    "no certificate chain found", naming the secret and its version. *)
Theorem pem_no_certificate_blocks (certSpec : CertificateSpec) (value : string) :
  Forall (fun b => Type_ b <> "CERTIFICATE") (pemBlocks value) ->
  parsePem (pemBlocks value) certSpec = (None, None) /\
  exists msg,
    extract {| Value := value; ContentType := PEMContentType |} certSpec = (None, Some msg) /\
    Str.contains "no certificate chain found" msg = true /\
    Str.contains (Name certSpec) msg = true /\
    Str.contains (Version certSpec) msg = true.
Proof.
  intros Hno.
  assert (Hp : parsePem (pemBlocks value) certSpec = (None, None))
    by (unfold parseCertificateInPem; now apply parsePemBlocks_skip).
  split; [exact Hp|].
  exists (errNoChain certSpec).
  unfold extractCertificateFromResponse; cbn [ContentType Value].
  rewrite eqb_PEM_PKCS12, String.eqb_refl, Hp.
  split; [reflexivity|].
  unfold errNoChain. repeat split; contains_tac.
Qed.

(** C3: a nil pointer, the empty string, a string that is not base64 and
    base64 whose bytes are not a PKCS#12 bundle all fail with a nil slice;
    no failure comes with certificates. *)
Theorem pkcs12_failures (certSpec : CertificateSpec) (data : option string) :
  (snd (parseP12 data certSpec) <> None -> fst (parseP12 data certSpec) = None) /\
  (data = None \/ data = Some ""%string \/
   (exists s, data = Some s /\ DecodeString s = None) \/
   (exists s raw, data = Some s /\ DecodeString s = Some raw /\ DecodeChain raw = None) ->
   fst (parseP12 data certSpec) = None /\ snd (parseP12 data certSpec) <> None).
Proof.
  unfold parseCertificateInPKCS12. split.
  - intros H. destruct data as [s|]; [|reflexivity].
    destruct (isBlank s); [reflexivity|].
    destruct (DecodeString s) as [raw|]; [|reflexivity].
    destruct (DecodeChain raw) as [[leaf cas]|]; [|reflexivity].
    simpl in H. contradiction.
  - intros [-> | [-> | [[s [-> Hd]] | [s [raw [-> [Hd Hc]]]]]]].
    + split; [reflexivity | discriminate].
    + split; [reflexivity | discriminate].
    + destruct (isBlank s); [|rewrite Hd]; split; (reflexivity || discriminate).
    + destruct (isBlank s); [|rewrite Hd, Hc]; split; (reflexivity || discriminate).
Qed.

(** C4: any content type other than the PEM and PKCS#12 ones is rejected
    with no certificate and an error naming the content type, the secret
    and both accepted content types. *)
Theorem extract_unexpected_content_type (certSpec : CertificateSpec) (response : Secret) :
  ContentType response <> PEMContentType ->
  ContentType response <> PKCS12ContentType ->
  exists msg,
    extract response certSpec = (None, Some msg) /\
    Str.contains (ContentType response) msg = true /\
    Str.contains (Name certSpec) msg = true /\
    Str.contains PKCS12ContentType msg = true /\
    Str.contains PEMContentType msg = true.
Proof.
  intros Hpem Hp12.
  exists (errUnexpectedContentType (ContentType response) certSpec).
  unfold extractCertificateFromResponse.
  destruct (String.eqb_spec (ContentType response) PKCS12ContentType) as [E|_]; [contradiction|].
  destruct (String.eqb_spec (ContentType response) PEMContentType) as [E|_]; [contradiction|].
  split; [reflexivity|].
  unfold errUnexpectedContentType. repeat split; contains_tac.
Qed.

(** C5: with no cached certificate (nil or empty), GetCertificates fails
    with "no cached certificates available" and a nil result; otherwise it
    returns the cached certificates without error. *)
Theorem GetCertificates_cached (p : Provider Certificate) :
  (len (cachedCerts Certificate p) = 0%nat ->
   exists e, GetCertificates Certificate p = (None, Some e) /\
             Str.contains "no cached certificates available" e = true) /\
  (len (cachedCerts Certificate p) <> 0%nat ->
   GetCertificates Certificate p = (cachedCerts Certificate p, None)).
Proof.
  unfold GetCertificates. split.
  - intros H. rewrite H. exists "no cached certificates available"%string. split; reflexivity.
  - intros H. apply Nat.eqb_neq in H. now rewrite H.
Qed.

End Proofs.

End KeyVaultProofs.

(* ===================================================================== *)
(* Cache: the cost invariant of the library state                         *)
(* ===================================================================== *)

Module RistrettoFacts.
Import Ristretto.

Section Facts.
Context {V : Type}.
Implicit Types (c : t V) (m : gmap string (item V)).

(** Every entry is charged [1 + itemSize], the policy total is the number
    of entries times that cost, and it stays within [MaxCost]. *)
Definition costs_ok (maxC : Z) c : Prop :=
  maxCost c = maxC /\ 0 <= itemSize c /\
  (forall k it, storedItems c !! k = Some it -> icost it = 1 + itemSize c) /\
  used c = Z.of_nat (size (storedItems c)) * (1 + itemSize c) /\
  used c <= maxCost c.

Lemma size_delete_S m k it :
  m !! k = Some it -> size m = S (size (delete k m)).
Proof.
  intros Hk.
  rewrite <- (map_size_insert_None k it (delete k m)) by apply lookup_delete_eq.
  rewrite insert_delete_eq. by rewrite insert_id.
Qed.

Lemma evict_ok maxC c k : costs_ok maxC c -> costs_ok maxC (evict c k).
Proof.
  unfold evict. destruct (storedItems c !! k) as [it|] eqn:E; [|done].
  intros (Hm & His & Hc & Hu & Hle). unfold costs_ok, with_store; simpl.
  pose proof (Hc k it E) as Hit. pose proof (size_delete_S _ _ _ E) as Hs.
  split_and!; [done | done | | | ].
  - intros k' it' Hk'. apply lookup_delete_Some in Hk' as [_ Hk']. eauto.
  - rewrite Hu, Hs, Hit. lia.
  - rewrite Hu, Hs in *. lia.
Qed.

Lemma evict_lookup_None c k k' :
  storedItems c !! k' = None -> storedItems (evict c k) !! k' = None.
Proof.
  unfold evict. destruct (storedItems c !! k); [|done]. simpl.
  intros H. apply lookup_delete_None. by right.
Qed.

Lemma evict_fields c k :
  maxCost (evict c k) = maxCost c /\ itemSize (evict c k) = itemSize c /\
  setBuf (evict c k) = setBuf c /\ now (evict c k) = now c.
Proof. unfold evict. by destruct (storedItems c !! k). Qed.

Lemma evicts_ok maxC c ks : costs_ok maxC c -> costs_ok maxC (fold_left evict ks c).
Proof. revert c. induction ks as [|k ks IH]; intros c H; [done|]. apply IH, evict_ok, H. Qed.

Lemma evicts_lookup_None c ks k' :
  storedItems c !! k' = None -> storedItems (fold_left evict ks c) !! k' = None.
Proof.
  revert c. induction ks as [|k ks IH]; intros c H; [done|]. apply IH, evict_lookup_None, H.
Qed.

Lemma evicts_fields c ks :
  maxCost (fold_left evict ks c) = maxCost c /\ itemSize (fold_left evict ks c) = itemSize c /\
  setBuf (fold_left evict ks c) = setBuf c /\ now (fold_left evict ks c) = now c.
Proof.
  revert c. induction ks as [|k ks IH]; intros c; [done|]. simpl.
  destruct (IH (evict c k)) as (A & B & C & D).
  destruct (evict_fields c k) as (A' & B' & C' & D').
  rewrite A, B, C, D, A', B', C', D'. done.
Qed.

Lemma store_new_ok maxC c key i :
  costs_ok maxC c -> storedItems c !! key = None ->
  used c + (1 + itemSize c) <= maxCost c ->
  costs_ok maxC (store_new c key i (1 + itemSize c)).
Proof.
  intros (Hm & His & Hc & Hu & Hle) Hnone Hfit. unfold costs_ok, store_new, with_store; simpl.
  split_and!; [done | done | | | lia].
  - intros k it Hk. apply lookup_insert_Some in Hk as [[<- <-] | [_ Hk]]; [done | eauto].
  - rewrite map_size_insert_None by done. rewrite Hu. lia.
Qed.

Lemma policyAdd_ok maxC c key i vd :
  costs_ok maxC c -> costs_ok maxC (policyAdd c key i (1 + itemSize c) vd).
Proof.
  intros H. unfold policyAdd.
  destruct (maxCost c <? 1 + itemSize c); [done|].
  destruct (storedItems c !! key) as [?|] eqn:Hnone; [done|].
  destruct (Z.leb_spec (used c + (1 + itemSize c)) (maxCost c)) as [Hfit|_].
  { by apply store_new_ok. }
  destruct (evicts_fields c (victims vd)) as (_ & Eis & _ & _).
  pose proof (evicts_ok _ _ (victims vd) H) as H1.
  destruct (admitted vd);  simpl; [|done].
  destruct (Z.leb_spec (used (fold_left evict (victims vd) c) + (1 + itemSize c))
                       (maxCost (fold_left evict (victims vd) c))) as [Hfit|_]; [|done].
  rewrite <- Eis in *. apply store_new_ok; [done | | done].
  by apply evicts_lookup_None.
Qed.

Lemma processItem_ok maxC policy c e :
  costs_ok maxC c -> icost (snd e) = 1 -> costs_ok maxC (processItem policy c e).
Proof.
  destruct e as [[flag key] i]. simpl. intros H Hi. rewrite Hi.
  destruct flag.
  - by apply policyAdd_ok.
  - destruct (storedItems c !! key) as [it|] eqn:Hk; [|done].
    destruct H as (Hm & His & Hc & Hu & Hle). unfold costs_ok, with_store; simpl.
    pose proof (Hc key it Hk) as Hit.
    rewrite map_size_insert_Some by (rewrite Hk; eauto).
    split_and!; [done | done | | lia | lia].
    intros k it' Hk'. apply lookup_insert_Some in Hk' as [[<- <-] | [_ Hk']]; [simpl; lia | eauto].
Qed.

End Facts.

End RistrettoFacts.

(* ===================================================================== *)
(* Cache: proofs                                                          *)
(* ===================================================================== *)

Module RistrettoCacheProofs.
Import Ristretto RistrettoFacts CacheAPI RistrettoCache.

Section Proofs.
Context {T : Type}.
Implicit Types (c : Ristretto.t T) (r : Cache T).

Definition unit_items (b : list (itemFlag * string * item T)) : Prop :=
  Forall (fun e => icost (snd e) = 1) b.

Lemma processItem_fields policy c e :
  maxCost (processItem policy c e) = maxCost c /\
  itemSize (processItem policy c e) = itemSize c /\
  now (processItem policy c e) = now c.
Proof.
  destruct e as [[flag key] i]. unfold processItem.
  destruct flag.
  - unfold policyAdd.
    destruct (maxCost c <? icost i + itemSize c); [done|].
    destruct (storedItems c !! key); [done|].
    destruct (used c + (icost i + itemSize c) <=? maxCost c); [done|].
    destruct (evicts_fields c (victims (policy key))) as (A & B & _ & D).
    destruct (admitted (policy key) && _); simpl; by rewrite ?A, ?B, ?D.
  - by destruct (storedItems c !! key).
Qed.

Lemma fold_process_ok maxC policy c b :
  costs_ok maxC c -> unit_items b -> costs_ok maxC (fold_left (processItem policy) b c).
Proof.
  revert c. induction b as [|e b IH]; intros c H Hb; [done|].
  inversion Hb; subst. simpl. apply IH; [|done]. by apply processItem_ok.
Qed.

Lemma fold_process_fields policy c b :
  maxCost (fold_left (processItem policy) b c) = maxCost c /\
  itemSize (fold_left (processItem policy) b c) = itemSize c /\
  now (fold_left (processItem policy) b c) = now c.
Proof.
  revert c. induction b as [|e b IH]; intros c; [done|]. simpl.
  destruct (IH (processItem policy c e)) as (A & B & D).
  destruct (processItem_fields policy c e) as (A' & B' & D').
  by rewrite A, B, D, A', B', D'.
Qed.

Lemma Wait_ok maxC policy c :
  costs_ok maxC c -> unit_items (setBuf c) ->
  costs_ok maxC (Wait policy c) /\ setBuf (Wait policy c) = [].
Proof.
  intros H Hb. unfold Wait. split; [|done].
  pose proof (fold_process_ok maxC policy c (setBuf c) H Hb) as (A & B & C & D & E).
  by split_and!.
Qed.

Lemma SetWithTTL_ok maxC c key value ttl1 bf :
  costs_ok maxC c -> setBuf c = [] ->
  costs_ok maxC (snd (SetWithTTL c key value 1 ttl1 bf)) /\
  unit_items (setBuf (snd (SetWithTTL c key value 1 ttl1 bf))).
Proof.
  intros H Hb. unfold SetWithTTL.
  destruct (ttl1 <? 0); [simpl; rewrite Hb; split; [done | constructor]|].
  destruct (storedItems c !! key) as [prev|] eqn:Hk.
  - destruct H as (Hm & His & Hc & Hu & Hle).
    assert (costs_ok maxC (with_store c (<[key:=mkItem value
              (if ttl1 =? 0 then 0 else now c + ttl1) (icost prev)]> (storedItems c)) (used c)))
      as Hok.
    { unfold costs_ok, with_store; simpl.
      rewrite map_size_insert_Some by (rewrite Hk; eauto).
      split_and!; [done | done | | done | done].
      intros k it Hk'. apply lookup_insert_Some in Hk' as [[<- <-] | [_ Hk']]; simpl; eauto. }
    destruct bf; simpl.
    + split; [done|]. rewrite Hb. constructor.
    + split; [done|]. rewrite Hb. repeat constructor.
  - destruct bf; simpl; rewrite Hb; split; try done; try constructor; repeat constructor.
Qed.

Lemma Set_ok maxC r key value ttl0 bf policy :
  costs_ok maxC (cache r) -> setBuf (cache r) = [] ->
  costs_ok maxC (cache (snd (Set_ r key value ttl0 bf policy))) /\
  setBuf (cache (snd (Set_ r key value ttl0 bf policy))) = [] /\
  ttl (snd (Set_ r key value ttl0 bf policy)) = ttl r.
Proof.
  intros H Hb. unfold Set_.
  set (ttl1 := if ttl0 <=? 0 then ttl r else ttl0).
  pose proof (SetWithTTL_ok maxC (cache r) key value ttl1 bf H Hb) as [H1 Hb1].
  destruct (SetWithTTL (cache r) key value 1 ttl1 bf) as [saved c1]. simpl in *.
  destruct (Wait_ok maxC policy c1 H1 Hb1). done.
Qed.

(** Reachable caches keep the cost invariant, an empty set buffer and a
    non-negative default TTL. *)
Lemma reachable_inv r :
  reachable r -> costs_ok defaultMaxSize (cache r) /\ setBuf (cache r) = [] /\ 0 <= ttl r.
Proof.
  induction 1 as [itemSize0 now0 ttl0 r His Hnew | r key value ttl0 bf policy _ (H & Hb & Ht)
                 | r key _ (H & Hb & Ht) | r d Hd _ (H & Hb & Ht)].
  - unfold NewCache in Hnew.
    destruct (Z.ltb_spec ttl0 0); [discriminate|].
    simpl in Hnew. injection Hnew as <-. simpl.
    unfold costs_ok; simpl. rewrite map_size_empty.
    split_and!; try done; try lia;
      intros k it Hk; by rewrite lookup_empty in Hk.
  - destruct (Set_ok _ r key value ttl0 bf policy H Hb) as (A & B & C).
    rewrite C. done.
  - unfold Delete, Ristretto.Del. cbn [snd cache ttl].
    destruct (evict_fields (cache r) key) as (_ & _ & E & _).
    split_and!; [by apply evict_ok | by rewrite E | done].
  - simpl. destruct H as (A & B & C & D & E).
    unfold costs_ok; simpl. split_and!; done.
Qed.

(** A key absent before [policyAdd] is present afterwards only with the
    incoming item. *)
Lemma policyAdd_lookup c key i cost vd :
  storedItems c !! key = None ->
  is_Some (storedItems (policyAdd c key i cost vd) !! key) ->
  storedItems (policyAdd c key i cost vd) !! key = Some (mkItem (ivalue i) (iexpiration i) cost).
Proof.
  intros Hk. unfold policyAdd.
  destruct (maxCost c <? cost); [rewrite Hk; by intros []|].
  rewrite Hk.
  destruct (used c + cost <=? maxCost c).
  { unfold store_new, with_store; simpl. by rewrite lookup_insert_eq. }
  pose proof (evicts_lookup_None c (victims vd) key Hk) as Hk1.
  destruct (admitted vd && _).
  - unfold store_new, with_store; simpl. by rewrite lookup_insert_eq.
  - rewrite Hk1. by intros [].
Qed.

(** After a successful [Set] on a reachable cache, a kept entry for the
    key holds the value with the expiration computed from the effective
    TTL, and the clock has not moved. *)
Lemma Set_kept r key value ttl0 bf policy r' :
  reachable r ->
  Set_ r key value ttl0 bf policy = (None, r') ->
  is_Some (storedItems (cache r') !! key) ->
  let ttl1 := if ttl0 <=? 0 then ttl r else ttl0 in
  now (cache r') = now (cache r) /\
  exists cst, storedItems (cache r') !! key =
    Some (mkItem value (if ttl1 =? 0 then 0 else now (cache r) + ttl1) cst).
Proof.
  intros Hr HS Hkept ttl1.
  destruct (reachable_inv r Hr) as (_ & Hb & Ht).
  assert (Ht1 : 0 <= ttl1) by (subst ttl1; destruct (Z.leb_spec ttl0 0); lia).
  unfold Set_ in HS. fold ttl1 in HS.
  unfold SetWithTTL in HS.
  destruct (Z.ltb_spec ttl1 0) as [Hneg|_]; [lia|].
  set (exp := if ttl1 =? 0 then 0 else now (cache r) + ttl1) in *.
  destruct (storedItems (cache r) !! key) as [prev|] eqn:Hk.
  - destruct bf; simpl in HS; injection HS as <-; simpl in *; rewrite Hb in *; simpl in *.
    + split; [done|]. exists (icost prev). by rewrite lookup_insert_eq.
    + rewrite lookup_insert_eq. simpl. split; [done|].
      eexists. by rewrite lookup_insert_eq.
  - destruct bf; simpl in HS; [discriminate|].
    injection HS as <-. simpl in *. rewrite Hb in *. simpl in *.
    destruct (processItem_fields policy (with_buf (cache r) [(itemNew, key, mkItem value exp 1)])
                (itemNew, key, mkItem value exp 1))
      as (_ & _ & Hnow).
    simpl in Hnow. split; [exact Hnow|].
    eexists. apply policyAdd_lookup; [exact Hk | exact Hkept].
Qed.

(** C7: a negative default TTL makes NewCache fail with InvalidTTL and no
    cache; any other TTL yields a cache with that TTL and no error. *)
Theorem NewCache_ttl (itemSize now ttl0 : Z) :
  (ttl0 < 0 -> NewCache (T:=T) itemSize now ttl0 = (None, Some ErrInvalidTTL)) /\
  (0 <= ttl0 -> snd (NewCache (T:=T) itemSize now ttl0) <> Some ErrInvalidTTL /\
                exists r, NewCache (T:=T) itemSize now ttl0 = (Some r, None) /\ ttl r = ttl0).
Proof.
  unfold NewCache. split.
  - intros Hlt. destruct (Z.ltb_spec ttl0 0); [reflexivity | lia].
  - intros Hge. destruct (Z.ltb_spec ttl0 0); [lia|]. simpl.
    split; [discriminate|]. eexists. split; reflexivity.
Qed.


(** C9: a key that is absent or whose entry has expired is reported as
    NotFound with the zero value; an error never comes with another
    value. *)
Theorem Get_missing `{GoZero T} r key :
  (storedItems (cache r) !! key = None \/
   (exists it, storedItems (cache r) !! key = Some it /\
               iexpiration it <> 0 /\ iexpiration it < now (cache r)) ->
   Get r key = (zero, Some ErrNotFound)) /\
  (forall key', snd (Get r key') <> None -> Get r key' = (zero, Some ErrNotFound)).
Proof.
  split.
  - unfold Get, Ristretto.Get.
    intros [Hk | [it (Hk & Hne & Hlt)]]; rewrite Hk; [reflexivity|].
    destruct (Z.eqb_spec (iexpiration it) 0); [contradiction|].
    destruct (Z.leb_spec (now (cache r)) (iexpiration it)); [lia|]. reflexivity.
  - intros key'. unfold Get.
    destruct (Ristretto.Get (cache r) key'); [|reflexivity].
    simpl. intros Hn. by contradiction Hn.
Qed.

(** C10: every entry a reachable cache holds is charged the same cost,
    1 (given by Set) plus the library's fixed per-item cost, whatever its
    value; so MaxCost = defaultMaxSize bounds the number of entries. *)
Theorem Set_unit_cost r :
  reachable r ->
  (forall k it, storedItems (cache r) !! k = Some it -> icost it = 1 + itemSize (cache r)) /\
  Z.of_nat (size (storedItems (cache r))) * (1 + itemSize (cache r)) <= defaultMaxSize /\
  Z.of_nat (size (storedItems (cache r))) <= defaultMaxSize.
Proof.
  intros Hr. destruct (reachable_inv r Hr) as ((Hm & His & Hc & Hu & Hle) & _ & _).
  split_and!; [exact Hc | lia | nia].
Qed.

End Proofs.

End RistrettoCacheProofs.

(* ===================================================================== *)
(* Cache: further properties of Get, Set, Delete and NewCache             *)
(* ===================================================================== *)

Module RistrettoCacheMore.
Import Ristretto RistrettoFacts CacheAPI RistrettoCache RistrettoCacheProofs.

Section More.
Context {T : Type}.
Implicit Types (c : Ristretto.t T) (r : Cache T).

Lemma evicts_lookup_other c ks k' :
  storedItems (fold_left evict ks c) !! k' = storedItems c !! k' \/
  storedItems (fold_left evict ks c) !! k' = None.
Proof.
  revert c. induction ks as [|k ks IH]; intros c; [by left|]. simpl.
  destruct (IH (evict c k)) as [E|E]; [|by right].
  rewrite E. unfold evict.
  destruct (storedItems c !! k) as [it|] eqn:Hk; [|by left]. simpl.
  rewrite lookup_delete. case_decide; [subst; by right | by left].
Qed.

(** The library state after [Set] on a cache with an empty set buffer. *)
Lemma Set_cache r key value ttl0 bf policy :
  setBuf (cache r) = [] ->
  cache (snd (Set_ r key value ttl0 bf policy)) =
  Wait policy (snd (SetWithTTL (cache r) key value 1
                      (if ttl0 <=? 0 then ttl r else ttl0) bf)).
Proof.
  intros Hb. unfold Set_.
  destruct (SetWithTTL _ _ _ _ _ _) as [saved c1]. reflexivity.
Qed.

(** [Set] never changes the entry of another key; it may only evict it.
    The clock does not move. *)
Lemma Set_other_store r key value ttl0 bf policy k' :
  reachable r -> k' <> key ->
  now (cache (snd (Set_ r key value ttl0 bf policy))) = now (cache r) /\
  (storedItems (cache (snd (Set_ r key value ttl0 bf policy))) !! k' = storedItems (cache r) !! k' \/
   storedItems (cache (snd (Set_ r key value ttl0 bf policy))) !! k' = None).
Proof.
  intros Hr Hne. destruct (reachable_inv r Hr) as (_ & Hb & _).
  rewrite (Set_cache r key value ttl0 bf policy Hb).
  set (ttl1 := if ttl0 <=? 0 then ttl r else ttl0).
  unfold SetWithTTL.
  destruct (ttl1 <? 0); [unfold Wait; simpl; rewrite Hb; simpl; split; [done | by left]|].
  set (exp := if ttl1 =? 0 then 0 else now (cache r) + ttl1).
  destruct (storedItems (cache r) !! key) as [prev|] eqn:Hk.
  - destruct bf; unfold Wait; simpl; rewrite Hb; simpl.
    + split; [done|]. left. by rewrite lookup_insert_ne by congruence.
    + rewrite lookup_insert_eq. simpl. split; [done|].
      left. by rewrite !lookup_insert_ne by congruence.
  - destruct bf; unfold Wait; simpl; rewrite Hb; simpl; [split; [done | by left]|].
    destruct (processItem_fields policy (with_buf (cache r) [(itemNew, key, mkItem value exp 1)])
                (itemNew, key, mkItem value exp 1)) as (_ & _ & Hnow).
    simpl in Hnow. split; [exact Hnow|].
    unfold policyAdd. simpl. rewrite Hk.
    destruct (maxCost (cache r) <? 1 + itemSize (cache r)); [by left|].
    destruct (used (cache r) + (1 + itemSize (cache r)) <=? maxCost (cache r)).
    { left. unfold store_new, with_store. simpl. by rewrite lookup_insert_ne by congruence. }
    destruct (evicts_lookup_other (with_buf (cache r) [(itemNew, key, mkItem value exp 1)])
                (victims (policy key)) k') as [E|E];
    destruct (admitted (policy key) && _); unfold store_new, with_store; simpl;
      rewrite ?lookup_insert_ne by congruence; rewrite E; [by left | by left | by right | by right].
Qed.

(** After [Set] on a reachable cache, the key has either no entry or the
    new value with the expiration computed from the effective TTL. *)
Lemma Set_lookup r key value ttl0 bf policy :
  reachable r ->
  let r' := snd (Set_ r key value ttl0 bf policy) in
  let ttl1 := if ttl0 <=? 0 then ttl r else ttl0 in
  now (cache r') = now (cache r) /\
  (storedItems (cache r') !! key = None \/
   exists cst, storedItems (cache r') !! key =
     Some (mkItem value (if ttl1 =? 0 then 0 else now (cache r) + ttl1) cst)).
Proof.
  intros Hr r' ttl1.
  destruct (reachable_inv r Hr) as (_ & Hb & Ht).
  assert (Ht1 : 0 <= ttl1) by (subst ttl1; destruct (Z.leb_spec ttl0 0); lia).
  subst r'. rewrite (Set_cache r key value ttl0 bf policy Hb). fold ttl1.
  unfold SetWithTTL.
  destruct (Z.ltb_spec ttl1 0) as [Hneg|_]; [lia|].
  set (exp := if ttl1 =? 0 then 0 else now (cache r) + ttl1).
  destruct (storedItems (cache r) !! key) as [prev|] eqn:Hk.
  - destruct bf; unfold Wait; simpl; rewrite Hb; simpl.
    + split; [done|]. right. exists (icost prev). by rewrite lookup_insert_eq.
    + rewrite lookup_insert_eq. simpl. split; [done|].
      right. eexists. by rewrite lookup_insert_eq.
  - destruct bf; unfold Wait; simpl; rewrite Hb; simpl; [split; [done | by left]|].
    destruct (processItem_fields policy (with_buf (cache r) [(itemNew, key, mkItem value exp 1)])
                (itemNew, key, mkItem value exp 1)) as (_ & _ & Hnow).
    simpl in Hnow. split; [exact Hnow|].
    destruct (storedItems (policyAdd (with_buf (cache r) [(itemNew, key, mkItem value exp 1)])
                key (mkItem value exp 1) (1 + itemSize (cache r)) (policy key)) !! key)
      as [x|] eqn:Hx; [|by left].
    right. exists (1 + itemSize (cache r)).
    pose proof (policyAdd_lookup (with_buf (cache r) [(itemNew, key, mkItem value exp 1)])
                  key (mkItem value exp 1) (1 + itemSize (cache r)) (policy key) Hk
                  ltac:(rewrite Hx; eauto)) as Hs.
    rewrite Hx in Hs. exact Hs.
Qed.

(** X: Delete always returns nil; afterwards the key is not found, and
    every other key reads as before. *)
Theorem Delete_then_Get `{GoZero T} r key :
  fst (Delete r key) = None /\
  Get (snd (Delete r key)) key = (zero, Some ErrNotFound) /\
  (forall k', k' <> key -> Get (snd (Delete r key)) k' = Get r k').
Proof.
  unfold Delete, Get, Ristretto.Get, Ristretto.Del, evict. simpl.
  destruct (storedItems (cache r) !! key) as [it|] eqn:Hk; simpl.
  - split_and!; [done | by rewrite lookup_delete_eq |].
    intros k' Hne. by rewrite lookup_delete_ne by congruence.
  - split_and!; [done | by rewrite Hk | done].
Qed.

(** X: Set fails only with AddFailed, and a failed Set leaves the stored
    entries and the clock as they were. *)
Theorem Set_failure_unchanged r key value ttl0 bf policy :
  reachable r ->
  (fst (Set_ r key value ttl0 bf policy) = None \/
   fst (Set_ r key value ttl0 bf policy) = Some ErrAddFailed) /\
  (fst (Set_ r key value ttl0 bf policy) = Some ErrAddFailed ->
   storedItems (cache (snd (Set_ r key value ttl0 bf policy))) = storedItems (cache r) /\
   now (cache (snd (Set_ r key value ttl0 bf policy))) = now (cache r)).
Proof.
  intros Hr. destruct (reachable_inv r Hr) as (_ & Hb & _).
  unfold Set_.
  set (ttl1 := if ttl0 <=? 0 then ttl r else ttl0).
  unfold SetWithTTL.
  destruct (ttl1 <? 0).
  { simpl. split; [by right|]. intros _. unfold Wait. by rewrite Hb. }
  destruct (storedItems (cache r) !! key); [destruct bf; simpl; split; [by left | discriminate | by left | discriminate]|].
  destruct bf; simpl.
  - split; [by right|]. intros _. unfold Wait. by rewrite Hb.
  - split; [by left | discriminate].
Qed.

(** X: Set never alters the value of another key: afterwards it reads as
    before, or is not found because the admission policy evicted it. *)
Theorem Set_other_key `{GoZero T} r key value ttl0 bf policy k' :
  reachable r -> k' <> key ->
  Get (snd (Set_ r key value ttl0 bf policy)) k' = Get r k' \/
  Get (snd (Set_ r key value ttl0 bf policy)) k' = (zero, Some ErrNotFound).
Proof.
  intros Hr Hne.
  destruct (Set_other_store r key value ttl0 bf policy k' Hr Hne) as [Hnow [E|E]];
    unfold Get, Ristretto.Get; rewrite E; [|by right].
  left. rewrite Hnow. reflexivity.
Qed.

(** X: overwriting a key that has an entry always succeeds, and the new
    value is read back until the effective TTL has elapsed. *)
Theorem Set_overwrite `{GoZero T} r key value ttl0 bf policy it d :
  reachable r ->
  storedItems (cache r) !! key = Some it ->
  0 <= d ->
  let ttl1 := if ttl0 <=? 0 then ttl r else ttl0 in
  (ttl1 = 0 \/ d <= ttl1) ->
  fst (Set_ r key value ttl0 bf policy) = None /\
  Get (elapse d (snd (Set_ r key value ttl0 bf policy))) key = (value, None).
Proof.
  intros Hr Hk Hd ttl1 Hwin.
  destruct (reachable_inv r Hr) as (_ & Hb & Ht).
  assert (Hok : fst (Set_ r key value ttl0 bf policy) = None).
  { unfold Set_, SetWithTTL. fold ttl1.
    destruct (Z.ltb_spec ttl1 0); [subst ttl1; destruct (Z.leb_spec ttl0 0); lia|].
    rewrite Hk. reflexivity. }
  split; [exact Hok|].
  destruct (Set_lookup r key value ttl0 bf policy Hr) as [Hnow [Hnone|[cst Hs]]].
  - exfalso. revert Hnone. rewrite (Set_cache r key value ttl0 bf policy Hb). fold ttl1.
    unfold SetWithTTL.
    destruct (Z.ltb_spec ttl1 0); [subst ttl1; destruct (Z.leb_spec ttl0 0); lia|].
    rewrite Hk. destruct bf; unfold Wait; simpl; rewrite Hb; simpl;
      rewrite ?lookup_insert_eq; simpl; rewrite ?lookup_insert_eq; discriminate.
  - fold ttl1 in Hs.
    unfold Get, elapse, Ristretto.Get, Ristretto.elapse. simpl.
    rewrite Hs. simpl.
    destruct (Z.eqb_spec ttl1 0) as [E|E]; [reflexivity|].
    destruct Hwin as [Hw|Hw]; [contradiction|].
    rewrite Hnow. destruct (Z.leb_spec (now (cache r) + d) (now (cache r) + ttl1)); [|lia].
    by rewrite orb_true_r.
Qed.

(** X: once more time than a positive effective TTL has passed since Set,
    the key is not found, whether or not Set succeeded. *)
Theorem Set_expires `{GoZero T} r key value ttl0 bf policy d :
  reachable r -> 0 <= now (cache r) ->
  let ttl1 := if ttl0 <=? 0 then ttl r else ttl0 in
  0 < ttl1 -> ttl1 < d ->
  Get (elapse d (snd (Set_ r key value ttl0 bf policy))) key = (zero, Some ErrNotFound).
Proof.
  intros Hr Hn ttl1 Hpos Hlate.
  destruct (Set_lookup r key value ttl0 bf policy Hr) as [Hnow [Hnone|[cst Hs]]];
    unfold Get, elapse, Ristretto.Get, Ristretto.elapse; simpl.
  - rewrite Hnone. reflexivity.
  - fold ttl1 in Hs. rewrite Hs. simpl.
    destruct (Z.eqb_spec ttl1 0) as [E|E]; [lia|].
    rewrite Hnow.
    destruct (Z.eqb_spec (now (cache r) + ttl1) 0) as [E0|E0].
    + lia.
    + destruct (Z.leb_spec (now (cache r) + d) (now (cache r) + ttl1)); [lia|]. reflexivity.
Qed.

(** X: a cache made by NewCache with a valid TTL holds nothing: every key
    is not found, whatever time has passed. *)
Theorem NewCache_empty `{GoZero T} itemSize now0 ttl0 :
  0 <= ttl0 ->
  exists r, NewCache itemSize now0 ttl0 = (Some r, None) /\ ttl r = ttl0 /\
    forall key d, Get (elapse d r) key = (zero, Some ErrNotFound).
Proof.
  intros Ht. unfold NewCache. destruct (Z.ltb_spec ttl0 0); [lia|].
  eexists. split_and!; [reflexivity | reflexivity |].
  intros key d. unfold Get, Ristretto.Get. simpl. by rewrite lookup_empty.
Qed.

Lemma SetWithTTL_fields c key value cost ttl1 bf :
  maxCost (snd (SetWithTTL c key value cost ttl1 bf)) = maxCost c /\
  itemSize (snd (SetWithTTL c key value cost ttl1 bf)) = itemSize c.
Proof.
  unfold SetWithTTL. destruct (ttl1 <? 0); [done|].
  destruct (storedItems c !! key); destruct bf; done.
Qed.

(** [Set] keeps the capacity and the per-item internal cost. *)
Lemma Set_fields r key value ttl0 bf policy :
  maxCost (cache (snd (Set_ r key value ttl0 bf policy))) = maxCost (cache r) /\
  itemSize (cache (snd (Set_ r key value ttl0 bf policy))) = itemSize (cache r).
Proof.
  unfold Set_.
  set (ttl1 := if ttl0 <=? 0 then ttl r else ttl0).
  destruct (SetWithTTL_fields (cache r) key value 1 ttl1 bf) as [A B].
  destruct (SetWithTTL (cache r) key value 1 ttl1 bf) as [saved c1]. simpl in *.
  unfold Wait. destruct (fold_process_fields policy c1 (setBuf c1)) as (A' & B' & _).
  simpl. by rewrite A', B'.
Qed.

(** A new key that fits in the remaining capacity is stored by [Set] when
    the set buffer has room: the policy's total cost grows by the key's
    cost, 1 plus the internal cost. *)
Lemma Set_fresh_room r key value ttl0 policy :
  reachable r ->
  storedItems (cache r) !! key = None ->
  used (cache r) + (1 + itemSize (cache r)) <= maxCost (cache r) ->
  used (cache (snd (Set_ r key value ttl0 false policy))) =
    used (cache r) + (1 + itemSize (cache r)).
Proof.
  intros Hr Hk Hroom.
  destruct (reachable_inv r Hr) as ((_ & Hs & _ & Hu & _) & Hb & Ht).
  rewrite (Set_cache r key value ttl0 false policy Hb).
  set (ttl1 := if ttl0 <=? 0 then ttl r else ttl0).
  unfold SetWithTTL.
  destruct (Z.ltb_spec ttl1 0); [subst ttl1; destruct (Z.leb_spec ttl0 0); lia|].
  rewrite Hk. unfold Wait. simpl. rewrite Hb. simpl.
  unfold policyAdd. simpl. rewrite Hk.
  destruct (Z.ltb_spec (maxCost (cache r)) (1 + itemSize (cache r))); [lia|].
  destruct (Z.leb_spec (used (cache r) + (1 + itemSize (cache r))) (maxCost (cache r))); [|lia].
  reflexivity.
Qed.

(** C6 (code_bug): Set returns nil although the library's admission
    policy drops the new key: on a reachable cache whose remaining
    capacity is too small for the key and whose policy rejects it, Set
    returns nil and an immediately following Get does not find the
    value. *)
Theorem Set_nil_not_stored `{GoZero T} r key value ttl0 policy :
  reachable r ->
  storedItems (cache r) !! key = None ->
  maxCost (cache r) < used (cache r) + (1 + itemSize (cache r)) ->
  admitted (policy key) = false ->
  fst (Set_ r key value ttl0 false policy) = None /\
  Get (snd (Set_ r key value ttl0 false policy)) key = (zero, Some ErrNotFound).
Proof.
  intros Hr Hk Hfull Hrej.
  destruct (reachable_inv r Hr) as (_ & Hb & Ht).
  set (ttl1 := if ttl0 <=? 0 then ttl r else ttl0).
  assert (Ht1 : 0 <= ttl1) by (subst ttl1; destruct (Z.leb_spec ttl0 0); lia).
  split.
  - unfold Set_, SetWithTTL. fold ttl1.
    destruct (Z.ltb_spec ttl1 0); [lia|]. by rewrite Hk.
  - assert (Hst : storedItems (cache (snd (Set_ r key value ttl0 false policy))) !! key = None).
    { rewrite (Set_cache r key value ttl0 false policy Hb). fold ttl1.
      unfold SetWithTTL.
      destruct (Z.ltb_spec ttl1 0); [lia|].
      rewrite Hk. unfold Wait. simpl. rewrite Hb. simpl.
      unfold policyAdd. simpl. rewrite Hk.
      destruct (maxCost (cache r) <? 1 + itemSize (cache r)); [exact Hk|].
      destruct (Z.leb_spec (used (cache r) + (1 + itemSize (cache r))) (maxCost (cache r))); [lia|].
      rewrite Hrej. simpl.
      apply evicts_lookup_None. exact Hk. }
    unfold Get, Ristretto.Get. by rewrite Hst.
Qed.

End More.

End RistrettoCacheMore.


(* ===================================================================== *)
(* Checks at concrete inputs                                              *)
(* ===================================================================== *)

Module Checks.
Import KeyVault KeyVaultProofs CacheAPI RistrettoCache RistrettoCacheProofs Fixtures.

Lemma pem_two_blocks_witness :
  parseCertificateInPem nat parseCert [certA; certB] spec0 = (Some [1; 2]%nat, None) /\
  len (fst (parseCertificateInPem nat parseCert ([keyBlock] ++ certA :: [keyBlock; certB] ++ certBad :: [certA]) spec0)) = 0%nat /\
  snd (parseCertificateInPem nat parseCert ([keyBlock] ++ certA :: [keyBlock; certB] ++ certBad :: [certA]) spec0) <> None.
Proof.
  split.
  - exact (proj1 (pem_two_blocks nat parseCert spec0 certA certB 1%nat eq_refl eq_refl eq_refl)
                 2%nat eq_refl).
  - exact (proj2 (pem_two_blocks nat parseCert spec0 certA certBad 1%nat eq_refl eq_refl eq_refl)
                 eq_refl [keyBlock] [keyBlock; certB] [certA]).
Defined.

Lemma pem_no_certificate_blocks_witness :
  Forall (fun b => Type_ b <> "CERTIFICATE") (pemOf "key-only") /\
  parseCertificateInPem nat parseCert (pemOf "key-only") spec0 = (None, None) /\
  exists msg,
    extractCertificateFromResponse nat parseCert pemOf b64 p12
      {| Value := "key-only"; ContentType := PEMContentType |} spec0 = (None, Some msg) /\
    Str.contains "no certificate chain found" msg = true /\
    Str.contains "test-cert" msg = true /\ Str.contains "v1" msg = true.
Proof.
  assert (Hf : Forall (fun b => Type_ b <> "CERTIFICATE") (pemOf "key-only")).
  { constructor; [intro E; discriminate E | constructor]. }
  split; [exact Hf|].
  exact (pem_no_certificate_blocks nat parseCert pemOf b64 p12 spec0 "key-only" Hf).
Defined.

Lemma pkcs12_failures_witness :
  fst (parseCertificateInPKCS12 nat b64 p12 (Some "not base64!") spec0) = None /\
  snd (parseCertificateInPKCS12 nat b64 p12 (Some "not base64!") spec0) <> None /\
  fst (parseCertificateInPKCS12 nat b64 p12 (Some "AAAA") spec0) = None /\
  snd (parseCertificateInPKCS12 nat b64 p12 (Some "AAAA") spec0) <> None /\
  fst (parseCertificateInPKCS12 nat b64 p12 None spec0) = None.
Proof.
  destruct (proj2 (pkcs12_failures nat b64 p12 spec0 (Some "not base64!"))
            (or_intror (or_intror (or_introl (ex_intro _ "not base64!"%string
               (conj eq_refl eq_refl)))))) as [A B].
  destruct (proj2 (pkcs12_failures nat b64 p12 spec0 (Some "AAAA"))
            (or_intror (or_intror (or_intror (ex_intro _ "AAAA"%string
               (ex_intro _ [Byte.x00] (conj eq_refl (conj eq_refl eq_refl)))))))) as [C D].
  destruct (proj2 (pkcs12_failures nat b64 p12 spec0 None) (or_introl eq_refl)) as [E _].
  exact (conj A (conj B (conj C (conj D E)))).
Defined.

Lemma extract_unexpected_content_type_witness :
  exists msg,
    extractCertificateFromResponse nat parseCert pemOf b64 p12
      {| Value := "some value"; ContentType := "application/unknown" |} spec0 = (None, Some msg) /\
    Str.contains "application/unknown" msg = true /\
    Str.contains "test-cert" msg = true /\
    Str.contains PKCS12ContentType msg = true /\
    Str.contains PEMContentType msg = true.
Proof.
  apply (extract_unexpected_content_type nat parseCert pemOf b64 p12 spec0
           {| Value := "some value"; ContentType := "application/unknown" |});
    simpl; discriminate.
Defined.

Lemma GetCertificates_cached_witness :
  (exists e, GetCertificates nat {| certSpecs := [spec0]; cachedCerts := Some [] |} = (None, Some e) /\
             Str.contains "no cached certificates available" e = true) /\
  GetCertificates nat {| certSpecs := [spec0]; cachedCerts := Some [7%nat] |} = (Some [7%nat], None).
Proof.
  split.
  - exact (proj1 (GetCertificates_cached nat {| certSpecs := [spec0]; cachedCerts := Some [] |})
                 eq_refl).
  - exact (proj2 (GetCertificates_cached nat {| certSpecs := [spec0]; cachedCerts := Some [7%nat] |})
                 ltac:(simpl; discriminate)).
Defined.

Lemma freshCache_reachable (d : Z) : 0 <= d -> reachable (freshCache d).
Proof. intros Hd. apply (reach_new 48 0 d); [lia|]. unfold NewCache. by destruct (Z.ltb_spec d 0); [lia|]. Qed.

Lemma NewCache_ttl_witness :
  NewCache (T:=nat) 48 0 (-1) = (None, Some ErrInvalidTTL) /\
  snd (NewCache (T:=nat) 48 0 5) <> Some ErrInvalidTTL.
Proof.
  split.
  - exact (proj1 (NewCache_ttl (T:=nat) 48 0 (-1)) ltac:(lia)).
  - exact (proj1 (proj2 (NewCache_ttl (T:=nat) 48 0 5) ltac:(lia))).
Defined.

Lemma Get_missing_witness :
  Get (freshCache 5) "absent" = (0%nat, Some ErrNotFound) /\
  Get (elapse 9 (snd (Set_ (freshCache 5) "k" 7%nat 0 false admitAll))) "k" = (0%nat, Some ErrNotFound).
Proof.
  split.
  - exact (proj1 (Get_missing (freshCache 5) "absent") (or_introl eq_refl)).
  - apply (proj1 (Get_missing _ "k")). right.
    eexists. split; [vm_compute; reflexivity|]. vm_compute. split; [discriminate | reflexivity].
Defined.

Lemma Set_unit_cost_witness :
  Z.of_nat (size (Ristretto.storedItems (cache (snd (Set_ (freshCache 5) "k" 7%nat 0 false admitAll)))))
    <= defaultMaxSize.
Proof.
  exact (proj2 (proj2 (Set_unit_cost _ (reach_set _ "k" 7%nat 0 false admitAll
                                           (freshCache_reachable 5 ltac:(lia)))))).
Defined.

End Checks.

(* ===================================================================== *)
(* Further checks at concrete inputs                                      *)
(* ===================================================================== *)

Module MoreChecks.
Import Fixtures CacheAPI RistrettoCache RistrettoCacheMore Checks.

Lemma withK_reachable : reachable withK.
Proof. apply reach_set, freshCache_reachable. lia. Qed.

Lemma Delete_then_Get_witness :
  "j"%string <> "k"%string /\
  Get (snd (Delete withK "k")) "j" = Get withK "j" /\
  Get (snd (Delete withK "k")) "k" = (0%nat, Some ErrNotFound).
Proof.
  split; [discriminate|].
  destruct (Delete_then_Get withK "k") as (_ & B & C).
  split; [exact (C "j"%string ltac:(discriminate)) | exact B].
Defined.

Lemma Set_failure_unchanged_witness :
  fst (Set_ (freshCache 5) "k" 7%nat 0 true admitAll) = Some ErrAddFailed /\
  Ristretto.storedItems (cache (snd (Set_ (freshCache 5) "k" 7%nat 0 true admitAll))) =
    Ristretto.storedItems (cache (freshCache 5)).
Proof.
  pose proof (Set_failure_unchanged (freshCache 5) "k" 7%nat 0 true admitAll
                (freshCache_reachable 5 ltac:(lia))) as [_ B].
  assert (E : fst (Set_ (freshCache 5) "k" 7%nat 0 true admitAll) = Some ErrAddFailed)
    by reflexivity.
  split; [exact E | exact (proj1 (B E))].
Defined.

Lemma Set_other_key_witness :
  "k"%string <> "j"%string /\
  (Get (snd (Set_ withK "j" 8%nat 0 false admitAll)) "k" = Get withK "k" \/
   Get (snd (Set_ withK "j" 8%nat 0 false admitAll)) "k" = (0%nat, Some ErrNotFound)).
Proof.
  split; [discriminate|].
  exact (Set_other_key withK "j" 8%nat 0 false admitAll "k" withK_reachable ltac:(discriminate)).
Defined.

Lemma Set_overwrite_witness :
  Ristretto.storedItems (cache withK) !! "k" = Some (Ristretto.mkItem 7%nat 5 49) /\
  fst (Set_ withK "k" 8%nat 0 true admitAll) = None /\
  Get (elapse 3 (snd (Set_ withK "k" 8%nat 0 true admitAll))) "k" = (8%nat, None).
Proof.
  assert (Hk : Ristretto.storedItems (cache withK) !! "k" = Some (Ristretto.mkItem 7%nat 5 49))
    by (vm_compute; reflexivity).
  split; [exact Hk|].
  apply (Set_overwrite withK "k" 8%nat 0 true admitAll _ 3 withK_reachable Hk); [lia|].
  right. vm_compute. discriminate.
Defined.

Lemma Set_expires_witness :
  Get (elapse 9 (snd (Set_ (freshCache 5) "k" 7%nat 0 false admitAll))) "k" = (0%nat, Some ErrNotFound).
Proof.
  apply (Set_expires (freshCache 5) "k" 7%nat 0 false admitAll 9
           (freshCache_reachable 5 ltac:(lia))).
  - vm_compute. discriminate.
  - vm_compute. reflexivity.
  - vm_compute. reflexivity.
Defined.

Lemma NewCache_empty_witness :
  exists r, NewCache (T:=nat) 48 0 5 = (Some r, None) /\ ttl r = 5 /\
    forall key d, Get (elapse d r) key = (0%nat, Some ErrNotFound).
Proof. exact (NewCache_empty (T:=nat) 48 0 5 ltac:(lia)). Defined.

Lemma keyP_nonempty (p : positive) : keyP p <> EmptyString.
Proof. destruct p; discriminate. Qed.

Lemma keyP_inj (p q : positive) : keyP p = keyP q -> p = q.
Proof.
  revert q. induction p as [p IH|p IH|]; intros q H; destruct q as [q|q|]; simpl in H;
    try reflexivity; try discriminate; try (injection H as H; f_equal; by apply IH).
  - injection H as H. by destruct (keyP_nonempty p).
  - injection H as H. by destruct (keyP_nonempty q (eq_sym H)).
Qed.

Lemma keyN_inj (m n : N) : keyN m = keyN n -> m = n.
Proof.
  destruct m as [|p], n as [|q]; simpl; intros H; try done.
  - by destruct (keyP_nonempty q (eq_sym H)).
  - by destruct (keyP_nonempty p H).
  - f_equal. by apply keyP_inj.
Qed.

Lemma keyN_new (m : N) : "new"%string <> keyN m.
Proof. destruct m as [|[p|p|]]; discriminate. Qed.

Lemma fill_succ (n : N) :
  fill (N.succ n) = snd (Set_ (fill n) (keyN n) 1%nat 0 false admitAll).
Proof. unfold fill. by rewrite N.peano_rect_succ. Qed.

Lemma fill_reachable (n : N) : reachable (fill n).
Proof.
  induction n as [|n IH] using N.peano_ind.
  - apply freshCache_reachable. lia.
  - rewrite fill_succ. by apply reach_set.
Qed.

Lemma fill_fields (n : N) :
  Ristretto.maxCost (cache (fill n)) = defaultMaxSize /\ Ristretto.itemSize (cache (fill n)) = 48.
Proof.
  induction n as [|n IH] using N.peano_ind; [done|].
  rewrite fill_succ. destruct (Set_fields (fill n) (keyN n) 1%nat 0 false admitAll) as [A B].
  by rewrite A, B.
Qed.

Lemma fill_absent (n : N) (k : string) :
  (forall m, (m < n)%N -> k <> keyN m) -> Ristretto.storedItems (cache (fill n)) !! k = None.
Proof.
  induction n as [|n IH] using N.peano_ind; intros Hk.
  - apply lookup_empty.
  - rewrite fill_succ.
    assert (Hne : k <> keyN n) by (apply Hk; lia).
    destruct (Set_other_store (fill n) (keyN n) 1%nat 0 false admitAll k (fill_reachable n) Hne)
      as [_ [E|E]]; [|exact E].
    rewrite E. apply IH. intros m Hm. apply Hk. lia.
Qed.

Lemma fill_used (n : N) :
  Z.of_N n * 49 <= defaultMaxSize -> Ristretto.used (cache (fill n)) = Z.of_N n * 49.
Proof.
  induction n as [|n IH] using N.peano_ind; intros Hn; [done|].
  rewrite N2Z.inj_succ in *. rewrite fill_succ.
  destruct (fill_fields n) as [Hm Hi].
  assert (Hu : Ristretto.used (cache (fill n)) = Z.of_N n * 49) by (apply IH; lia).
  rewrite (Set_fresh_room (fill n) (keyN n) 1%nat 0 admitAll (fill_reachable n)).
  - rewrite Hu, Hi. lia.
  - apply fill_absent. intros m Hlt E. apply keyN_inj in E. lia.
  - rewrite Hu, Hi, Hm. unfold defaultMaxSize in *. lia.
Qed.

(** A cache filled by 2040816 Sets of distinct keys holds 99999984 of its
    100000000 units of cost; a further new key of cost 1 + 48 does not fit. *)
Lemma Set_nil_not_stored_witness :
  fst (Set_ (fill 2040816) "new" 7%nat 0 false rejectAll) = None /\
  Get (snd (Set_ (fill 2040816) "new" 7%nat 0 false rejectAll)) "new" = (0%nat, Some ErrNotFound).
Proof.
  apply (Set_nil_not_stored (fill 2040816) "new" 7%nat 0 rejectAll (fill_reachable _)).
  - apply fill_absent. intros m _. apply keyN_new.
  - destruct (fill_fields 2040816) as [Hm Hi].
    rewrite Hm, Hi, fill_used; [vm_compute; reflexivity|].
    vm_compute. discriminate.
  - reflexivity.
Defined.

End MoreChecks.
